(** * Component hydration and the SNS topic component

    A shallow embedding of two files of the components repository:

    - [defineComponent] (the recursive hydration of a component tree), and
    - [registry/AwsSnsTopic/src/index.js] (the SNS topic component: the
      attribute diff [concatInputsAndState], the executors
      [updateTopicAttributes] and [resolveInSequence], and the lifecycle
      methods [construct], [shouldDeploy], [deploy]).

    JavaScript values are a small inductive type; objects that have an
    identity and are mutated (component instances) live in a heap and are
    denoted by references, while object and array literals are values.
    Asynchronous code is written in a state-and-rejection monad: [await p]
    is the monadic bind, a rejected promise is the [Rejected] result. *)

From stdpp Require Import base option list gmap strings pretty.
From Stdlib Require Import Ascii String ZArith.

Set Warnings "-register-all".
Local Open Scope string_scope.
Local Open Scope list_scope.

(** ** JavaScript values *)

Definition loc := positive.

Inductive jsval : Type :=
| VUndefined
| VNull
| VBool (b : bool)
| VNum (n : Z)
| VStr (s : string)
| VRef (l : loc)
| VObj (entries : list (string * jsval))
| VArr (items : list jsval).

(** Deep equality of two values ([equals]): primitives by value, heap
    objects by reference, arrays element by element, and object literals
    key by key, whatever the order of their keys. *)
Fixpoint jsval_eqb (a b : jsval) {struct a} : bool :=
  let fix items_eqb (xs ys : list jsval) {struct xs} : bool :=
    match xs, ys with
    | [], [] => true
    | v :: xs', v' :: ys' => jsval_eqb v v' && items_eqb xs' ys'
    | _, _ => false
    end in
  match a, b with
  | VUndefined, VUndefined => true
  | VNull, VNull => true
  | VBool x, VBool y => bool_decide (x = y)
  | VNum x, VNum y => bool_decide (x = y)
  | VStr x, VStr y => bool_decide (x = y)
  | VRef x, VRef y => bool_decide (x = y)
  | VObj xs, VObj ys =>
      (List.length xs =? List.length ys)%nat
      && forallb
           (fun x => existsb (fun y => bool_decide (x.1 = y.1) && jsval_eqb x.2 y.2) ys)
           xs
  | VArr xs, VArr ys => items_eqb xs ys
  | _, _ => false
  end.

(** [ToBoolean]: the falsy values are undefined, null, false, 0 and the
    empty string. *)
Definition truthy (v : jsval) : bool :=
  match v with
  | VUndefined | VNull => false
  | VBool b => b
  | VNum n => negb (n =? 0)%Z
  | VStr s => negb (bool_decide (s = ""))
  | VRef _ | VObj _ | VArr _ => true
  end.

(** [isNil]: null or undefined. *)
Definition isNil (v : jsval) : bool :=
  match v with
  | VUndefined | VNull => true
  | _ => false
  end.

(** [a === b].  Primitives compare by value and heap objects by reference;
    two literals are two distinct objects. *)
Definition strict_equals (a b : jsval) : bool :=
  match a, b with
  | VUndefined, VUndefined => true
  | VNull, VNull => true
  | VBool x, VBool y => bool_decide (x = y)
  | VNum x, VNum y => bool_decide (x = y)
  | VStr x, VStr y => bool_decide (x = y)
  | VRef x, VRef y => bool_decide (x = y)
  | _, _ => false
  end.

(** [a || b]. *)
Definition js_or (a b : jsval) : jsval := if truthy a then a else b.

(** [isObject]: anything that is not a primitive. *)
Definition isObject (v : jsval) : bool :=
  match v with
  | VRef _ | VObj _ | VArr _ => true
  | _ => false
  end.

(** The own enumerable keys of a literal, with their values. *)
Definition entries_of (v : jsval) : list (string * jsval) :=
  match v with
  | VObj es => es
  | VArr vs => imap (fun i x => (pretty i, x)) vs
  | _ => []
  end.

Definition keys (v : jsval) : list string := (entries_of v).*1.
Definition values (v : jsval) : list jsval := (entries_of v).*2.

(** [head] of an array of keys or of values: undefined when it is empty. *)
Definition head_key (v : jsval) : jsval :=
  match keys v with
  | k :: _ => VStr k
  | [] => VUndefined
  end.

Definition head_value (v : jsval) : jsval :=
  match values v with
  | x :: _ => x
  | [] => VUndefined
  end.

(** Property read [o[k]] on a literal. *)
Definition get_prop (o : jsval) (k : string) : jsval :=
  match list_find (fun e => e.1 = k) (entries_of o) with
  | Some (_, e) => e.2
  | None => VUndefined
  end.

(** *** Numbers as strings

    A number is an integer; the number it denotes is the nearest double.
    [Number::toString] prints the shortest digits that denote that double,
    in full up to 21 digits and in exponent notation beyond. *)

Definition nearest_double (n : Z) : Z :=
  let bits := (Z.log2 n + 1)%Z in
  if (bits <=? 53)%Z then n
  else
    let e := (bits - 53)%Z in
    let m := Z.shiftr n e in
    let r := (n - Z.shiftl m e)%Z in
    let half := Z.shiftl 1 (e - 1) in
    let m' := if (half <? r)%Z || ((half =? r)%Z && Z.odd m) then (m + 1)%Z else m in
    Z.shiftl m' e.

(** Twice the bounds of the numbers that round to the double [x], at least
    2^53, and whether the bounds themselves do. *)
Definition rounding_interval (x : Z) : Z * Z * bool :=
  let e := (Z.log2 x + 1 - 53)%Z in
  let m := Z.shiftr x e in
  let up := Z.shiftl 1 e in
  let down := if (m =? 2 ^ 52)%Z then Z.shiftl 1 (e - 1) else up in
  ((2 * x - down)%Z, (2 * x + up)%Z, Z.even m).

Definition rounds_to (x c : Z) : bool :=
  let '(low, high, inclusive) := rounding_interval x in
  if inclusive then (low <=? 2 * c)%Z && (2 * c <=? high)%Z
  else (low <? 2 * c)%Z && (2 * c <? high)%Z.

(** The multiple of 10^j that is nearest to [x], among those that round to
    [x], for the largest [j] there is one. *)
Fixpoint shortest_decimal (j : nat) (x : Z) : Z :=
  match j with
  | O => x
  | S j' =>
      let unit := (10 ^ Z.of_nat j)%Z in
      let below := (x / unit * unit)%Z in
      let above := (below + unit)%Z in
      let below_ok := (0 <? below)%Z && rounds_to x below in
      let above_ok := rounds_to x above in
      if below_ok && above_ok
      then (if (x - below <=? above - x)%Z then below else above)
      else if below_ok then below
      else if above_ok then above
      else shortest_decimal j' x
  end.

Fixpoint strip_zeros (s : string) : string :=
  match s with
  | "" => ""
  | String c rest =>
      match strip_zeros rest with
      | "" => if bool_decide (c = "0"%char) then "" else String c ""
      | rest' => String c rest'
      end
  end.

Definition positive_number_string (n : Z) : string :=
  if (2 ^ 1024 - 2 ^ 970 <=? n)%Z then "Infinity"
  else
    let x := nearest_double n in
    if (x <? 2 ^ 53)%Z then pretty x
    else
      let digits := pretty (shortest_decimal (String.length (pretty x)) x) in
      if (String.length digits <=? 21)%nat then digits
      else
        match strip_zeros digits with
        | String d "" => String d ("e+" +:+ pretty (String.length digits - 1)%nat)
        | String d rest =>
            String d ("." +:+ rest +:+ "e+" +:+ pretty (String.length digits - 1)%nat)
        | "" => digits
        end.

Definition number_string (n : Z) : string :=
  if (n <? 0)%Z then "-" +:+ positive_number_string (- n) else positive_number_string n.

(** The string a value takes in a template literal.  An array is its
    elements joined by commas, where null and undefined are empty. *)
Fixpoint template_string (v : jsval) : string :=
  match v with
  | VUndefined => "undefined"
  | VNull => "null"
  | VBool true => "true"
  | VBool false => "false"
  | VNum n => number_string n
  | VStr s => s
  | VRef _ | VObj _ => "[object Object]"
  | VArr vs =>
      (fix join (xs : list jsval) : string :=
         let element (x : jsval) : string :=
           match x with
           | VUndefined | VNull => ""
           | _ => template_string x
           end in
         match xs with
         | [] => ""
         | [x] => element x
         | x :: xs' => element x +:+ "," +:+ join xs'
         end) vs
  end.

(** The elements a collection utility iterates over; a value that is not an
    array has none. *)
Definition array_items (v : jsval) : list jsval :=
  match v with
  | VArr vs => vs
  | _ => []
  end.

(** [String.prototype.toUpperCase] on one character (ASCII letters). *)
Definition upcase (c : ascii) : ascii :=
  let n := nat_of_ascii c in
  if (97 <=? n)%nat && (n <=? 122)%nat then ascii_of_nat (n - 32) else c.

(** ** Promises: a state-and-rejection monad

    A computation of type [M S E A] runs from a state [S] of the outside
    world and settles either fulfilled with an [A] or rejected with an [E];
    the state it leaves is returned in both cases. *)

Inductive result (E A : Type) : Type :=
| Fulfilled (a : A)
| Rejected (e : E).
Arguments Fulfilled {E A} a.
Arguments Rejected {E A} e.

Definition M (S E A : Type) : Type := S -> result E A * S.

Definition ret {S E A} (a : A) : M S E A := fun s => (Fulfilled a, s).
Definition throw {S E A} (e : E) : M S E A := fun s => (Rejected e, s).
Definition bind {S E A B} (m : M S E A) (k : A -> M S E B) : M S E B :=
  fun s =>
    match m s with
    | (Fulfilled a, s') => k a s'
    | (Rejected e, s') => (Rejected e, s')
    end.
Definition modify {S E} (f : S -> S) : M S E unit := fun s => (Fulfilled tt, f s).
Definition gets {S E A} (f : S -> A) : M S E A := fun s => (Fulfilled (f s), s).

Declare Scope promise_scope.
Delimit Scope promise_scope with promise.
Notation "'await' x <- m ; k" := (bind m (fun x => k))
  (at level 10, x name, m at level 100, k at level 200) : promise_scope.
Notation "m ;; k" := (bind m (fun _ => k))
  (at level 100, k at level 200, right associativity) : promise_scope.
Local Open Scope promise_scope.

(** The imported [reduce]: an accumulator that is a promise is awaited
    before the iteratee is called, and the iteratee is given the value it
    was fulfilled with. *)
Fixpoint reduce {S E A B} (iteratee : A -> B -> M S E A) (accumulator : M S E A)
  (l : list B) : M S E A :=
  match l with
  | [] => accumulator
  | x :: l' => reduce iteratee (await a <- accumulator; iteratee a x) l'
  end.

(** [reduce((promise, f) => promise.then(result => f().then(concat.bind(result))),
    Promise.resolve([]), functionsToExecute)].  The iteratee calls [then]
    on its accumulator, which is the array [reduce] awaited and has no
    such method: the call throws the TypeError [not_a_function]. *)
Definition resolveInSequence {S E} (not_a_function : E)
  (functionsToExecute : list (M S E jsval)) : M S E (list jsval) :=
  reduce
    (fun (promise : list jsval) (functionToExecute : M S E jsval) =>
       throw not_a_function)
    (ret [])
    functionsToExecute.

(** [map] of a callback that returns a promise, over the items of an
    array: the callbacks are run one after the other, each awaited, and
    the first rejection ends the iteration. *)
Fixpoint map_awaiting {S E A B} (f : A -> M S E B) (l : list A) : M S E (list B) :=
  match l with
  | [] => ret []
  | x :: rest =>
      await y <- f x;
      await ys <- map_awaiting f rest;
      ret (y :: ys)
  end.

(** [map] of a callback that returns a promise, over the entries of a
    collection, one entry after the other. *)
Fixpoint map_entries {S E} (f : jsval -> string -> M S E jsval)
  (es : list (string * jsval)) : M S E (list (string * jsval)) :=
  match es with
  | [] => ret []
  | (key, child) :: rest =>
      await child' <- f child key;
      await rest' <- map_entries f rest;
      ret ((key, child') :: rest')
  end.

(** ** The SNS topic component (registry/AwsSnsTopic/src/index.js) *)

Module Sns.


Inductive error : Type :=
| TypeError (what : string)
| ProviderError (reason : jsval).

(** The value handed to the provider as [AttributeValue]: a string as it
    is, anything else as its JSON text. *)
Inductive attribute_value : Type :=
| Text (s : string)
| JSON_stringify (v : jsval).

(** What the component does to the outside world, in the order it does it. *)
Inductive event : Type :=
| CreateTopic (Name : jsval)
| SetTopicAttributes (TopicArn AttributeName : jsval) (AttributeValue : attribute_value)
| ContextLog (message : string).

Definition history := list event.
Definition promise (A : Type) := M history error A.

(** The SNS client.  The provider answers a request from the requests it
    has seen so far. *)
Record SNS : Type := {
  createTopic : jsval -> history -> result error jsval;
  setTopicAttributes : jsval -> jsval -> attribute_value -> history -> result error jsval
}.

(** An instance (and any object passed by fields) is a map from property
    names to values. *)
Abbreviation object := (gmap string jsval).

Definition field (o : object) (k : string) : jsval := default VUndefined (o !! k).

(** [merge(a, b)]: the properties of [b] win. *)
Definition merge (a b : object) : object := b ∪ a.

Record context : Type := {
  context_get : string -> jsval
}.

(** What the file takes from outside: the superclass, the SDK reached
    through the provider, and the [resolve] utility. *)
Record externals : Type := {
  super_construct : object -> jsval -> context -> promise object;
  new_SNS : jsval -> promise SNS;
  resolve : jsval -> jsval
}.

Definition context_log (message : string) : promise unit :=
  modify (fun h => h ++ [ContextLog message]).

Definition sns_createTopic (sns : SNS) (Name : jsval) : promise jsval :=
  fun h => (createTopic sns Name h, h ++ [CreateTopic Name]).

Definition sns_setTopicAttributes (sns : SNS) (TopicArn AttributeName : jsval)
  (AttributeValue : attribute_value) : promise jsval :=
  fun h => (setTopicAttributes sns TopicArn AttributeName AttributeValue h,
            h ++ [SetTopicAttributes TopicArn AttributeName AttributeValue]).

(** [`${string.charAt(0).toUpperCase()}${string.slice(1)}`] *)
Definition capitalize (string : jsval) : promise jsval :=
  match string with
  | VStr "" => ret (VStr "")
  | VStr (String c rest) => ret (VStr (String (upcase c) rest))
  | _ => throw (TypeError "charAt")
  end.

(** [typeof value !== 'string' ? JSON.stringify(value) : value] *)
Definition attributeValue (value : jsval) : attribute_value :=
  match value with
  | VStr s => Text s
  | _ => JSON_stringify value
  end.

(** [{ [key]: '' }] *)
Definition unset (key : jsval) : jsval := VObj [(template_string key, VStr "")].

Definition contains (x : jsval) (xs : list jsval) : bool :=
  existsb (jsval_eqb x) xs.

(** [isNil(find(equals(item))(state))] *)
Definition absent_from (state : list jsval) (item : jsval) : bool :=
  match find (jsval_eqb item) state with
  | Some found => isNil found
  | None => true
  end.

(** [state = []]: the default is for undefined alone. *)
Definition or_empty (state : jsval) : list jsval :=
  match state with
  | VUndefined => []
  | _ => array_items state
  end.

Definition concatInputsAndState (inputs : list jsval) (state : jsval) : list jsval :=
  let state := or_empty state in
  let attributeKeys := map head_key inputs in
  filter (fun item => absent_from state item = true)
    (inputs ++
     foldl
       (fun attributes attribute =>
          let key := head_key attribute in
          if negb (contains key attributeKeys)
          then attributes ++ [unset key]
          else attributes)
       []
       state).

(** The three single-key objects [{ displayName }], [{ policy }],
    [{ deliveryPolicy }] built from an object's fields. *)
Definition primary_attributes (o : object) : list jsval :=
  [ VObj [("displayName", field o "displayName")];
    VObj [("policy", field o "policy")];
    VObj [("deliveryPolicy", field o "deliveryPolicy")] ].

Definition topicAttributes_of (inputs : object) : list jsval :=
  foldl
    (fun result value =>
       if truthy (head_value value) then result ++ [value] else result)
    []
    (primary_attributes inputs).

Definition prevInstanceTopicAttributes_of (prevInstance : object) : list jsval :=
  filter (fun item => negb (isNil (head_value item)) = true)
         (primary_attributes prevInstance).

Definition flatDeliveryStatusAttributes_of (deliveryStatusAttributes : jsval) : list jsval :=
  foldl
    (fun result attribute =>
       result ++ map (fun key => VObj [(key, get_prop attribute key)]) (keys attribute))
    []
    (or_empty deliveryStatusAttributes).

(** The previous state is undefined or an array: of null, which the
    default does not replace, the utilities that go through it throw. *)
Definition iterable_state (state : jsval) : promise unit :=
  match state with
  | VNull => throw (TypeError "null")
  | _ => ret tt
  end.

(** One request per attribute: its key capitalized, its value as text. *)
Definition setTopicAttribute (sns : SNS) (topicArn topicAttribute : jsval) : promise jsval :=
  let value := head_value topicAttribute in
  await name <- capitalize (head_key topicAttribute);
  sns_setTopicAttributes sns topicArn name (attributeValue value).

(** What the imported [map] gives for the callback of
    [updateTopicAttributes]: of an empty array an empty array; otherwise
    the callback is called on the first attribute at once, where it throws
    when the attribute has no key to capitalize, and the value of [map] is
    the promise of the iteration. *)
Inductive mapped : Type :=
| Mapped_array (items : list jsval)
| Mapped_promise (pending : promise (list jsval))
| Mapped_thrown (e : error).

Definition map_topicAttributes (sns : SNS) (topicArn : jsval)
  (topicAttributes : list jsval) : mapped :=
  match topicAttributes with
  | [] => Mapped_array []
  | topicAttribute :: _ =>
      match head_key topicAttribute with
      | VStr _ =>
          Mapped_promise
            (map_awaiting (setTopicAttribute sns topicArn) topicAttributes)
      | _ => Mapped_thrown (TypeError "charAt")
      end
  end.

(** [Promise.all]: of an array of values, the array; of a promise, which
    is not iterable, a TypeError.  The requests the pending iteration
    makes are in the history it leaves. *)
Definition Promise_all (m : mapped) : promise (list jsval) :=
  match m with
  | Mapped_array items => ret items
  | Mapped_promise pending =>
      fun h => (Rejected (TypeError "object is not iterable"), (pending h).2)
  | Mapped_thrown e => throw e
  end.

Definition updateTopicAttributes (sns : SNS) (topicAttributes : list jsval)
  (topicArn : jsval) : promise (list jsval) :=
  Promise_all (map_topicAttributes sns topicArn topicAttributes).

Definition updateDeliveryStatusAttributes (sns : SNS)
  (deliveryStatusAttributes : list jsval) (topicArn : jsval) : promise (list jsval) :=
  resolveInSequence (TypeError "promise.then is not a function")
    (map (fun topicAttribute => setTopicAttribute sns topicArn topicAttribute)
         deliveryStatusAttributes).

Definition updateAttributes (sns : SNS) (inputs prevInstance : object) : promise object :=
  let topicArn := field inputs "topicArn" in
  let topicAttributes := topicAttributes_of inputs in
  let prevInstanceTopicAttributes := prevInstanceTopicAttributes_of prevInstance in
  let topicAttributesToUpdate :=
    concatInputsAndState topicAttributes (VArr prevInstanceTopicAttributes) in
  updateTopicAttributes sns topicAttributesToUpdate topicArn;;
  let flatDeliveryStatusAttributes :=
    flatDeliveryStatusAttributes_of (field inputs "deliveryStatusAttributes") in
  iterable_state (field prevInstance "deliveryStatusAttributes");;
  let deliveryStatusAttributesToUpdate :=
    concatInputsAndState flatDeliveryStatusAttributes
      (field prevInstance "deliveryStatusAttributes") in
  updateDeliveryStatusAttributes sns deliveryStatusAttributesToUpdate topicArn;;
  ret (merge
         (foldl
            (fun result value =>
               merge {[ template_string (head_key value) := head_value value ]} result)
            ∅
            topicAttributes)
         {[ "deliveryStatusAttributes" := VArr flatDeliveryStatusAttributes ]}).

(** [const { TopicArn: topicArn } = await ...] *)
Definition destructure (response : jsval) (k : string) : promise jsval :=
  if isNil response then throw (TypeError "destructure") else ret (get_prop response k).

Definition createSNSTopic (sns : SNS) (inputs : object) : promise object :=
  let topicName := field inputs "topicName" in
  await response <- sns_createTopic sns topicName;
  await topicArn <- destructure response "TopicArn";
  await topicAttributes <-
    updateAttributes sns
      (<["displayName" := field inputs "displayName"]>
       (<["policy" := field inputs "policy"]>
       (<["deliveryPolicy" := field inputs "deliveryPolicy"]>
       (<["deliveryStatusAttributes" := field inputs "deliveryStatusAttributes"]>
       (<["topicArn" := topicArn]> ∅)))))
      ∅;
  ret (merge (<["topicArn" := topicArn]> (<["topicName" := topicName]> ∅)) topicAttributes).

Section AwsSnsTopic.
Variable ext : externals.

Definition construct (this : object) (inputs : jsval) (ctx : context) : promise object :=
  await this <- super_construct ext this inputs ctx;
  (* [inputs.provider] of undefined or null *)
  if isNil inputs then throw (TypeError "Cannot read property 'provider'") else
  let this := <["provider" := js_or (get_prop inputs "provider") (context_get ctx "provider")]> this in
  let this := <["topicName" :=
                  js_or (get_prop inputs "topicName")
                        (VStr ("sns-" +:+ template_string (field this "instanceId")))]> this in
  let this := <["displayName" := get_prop inputs "displayName"]> this in
  let this := <["policy" := get_prop inputs "policy"]> this in
  let this := <["deliveryPolicy" := get_prop inputs "deliveryPolicy"]> this in
  let this := <["deliveryStatusAttributes" := get_prop inputs "deliveryStatusAttributes"]> this in
  ret this.


(** [Object.assign(this, props)] *)
Definition Object_assign (this props : object) : object := props ∪ this.

Definition deploy (this : object) (prevInstance : option object) : promise object :=
  let provider := field this "provider" in
  await sns <- new_SNS ext provider;
  let update :=
    match prevInstance with
    | Some prevInstance =>
        if strict_equals (field prevInstance "topicName") (resolve ext (field this "topicName"))
        then Some prevInstance else None
    | None => None
    end in
  match update with
  | Some prevInstance =>
      context_log ("Updating SNS topic: '" +:+ template_string (field this "topicName") +:+ "'...");;
      await updated <-
        updateAttributes sns
          (merge {[ "topicArn" := field prevInstance "topicArn" ]} this)
          prevInstance;
      let props :=
        merge updated
          (<["name" := field this "topicName"]>
           (<["topicArn" := field prevInstance "topicArn"]> ∅)) in
      let this := Object_assign this props in
      context_log ("SNS Topic '" +:+ template_string (field this "topicName") +:+ "' Updated.");;
      ret this
  | None =>
      context_log ("Creating SNS topic: '" +:+ template_string (field this "topicName") +:+ "'...");;
      await props <- createSNSTopic sns this;
      let this := Object_assign this props in
      context_log ("SNS Topic '" +:+ template_string (field this "topicName") +:+ "' Created.");;
      ret this
  end.

End AwsSnsTopic.

(** *** Reading a history *)

Definition is_creation (e : event) : bool :=
  match e with CreateTopic _ => true | _ => false end.

Definition is_update (e : event) : bool :=
  match e with SetTopicAttributes _ _ _ => true | _ => false end.

Definition is_log (e : event) : bool :=
  match e with ContextLog _ => true | _ => false end.

Definition creation_calls (h : history) : nat := List.length (List.filter is_creation h).
Definition update_calls (h : history) : nat := List.length (List.filter is_update h).

(** *** A provider that accepts every request *)

Definition orders_sns : SNS := {|
  createTopic := fun _ _ => Fulfilled (VObj [("TopicArn", VStr "arn:aws:sns:orders")]);
  setTopicAttributes := fun _ _ _ _ => Fulfilled (VObj [])
|}.

Definition orders_ext : externals := {|
  super_construct := fun this _ _ => ret (<["instanceId" := VStr "t1"]> this);
  new_SNS := fun _ => ret orders_sns;
  resolve := fun v => v
|}.

Definition orders_context : context := {| context_get := fun _ => VStr "aws" |}.

Definition orders_inputs : jsval :=
  VObj [("topicName", VStr "orders"); ("displayName", VStr "Orders")].

(** The topic of scenario A, as [construct] builds it. *)
Definition orders_instance : object :=
  match construct orders_ext ∅ orders_inputs orders_context [] with
  | (Fulfilled this, _) => this
  | (Rejected _, _) => ∅
  end.

(** [construct] the topic of scenario A, then [deploy] it with no previous
    instance. *)
Definition orders_deployment : result error object * history :=
  bind (construct orders_ext ∅ orders_inputs orders_context)
       (fun this => deploy orders_ext this None) [].

End Sns.

(** ** Hydration of a component tree (defineComponent) *)

Module Hydrate.

Abbreviation object := (gmap string jsval).
Abbreviation heap := (gmap loc (gmap string jsval)).

Inductive error : Type :=
| TypeError_not_a_component (component : jsval)
  (* defineComponent expected component parameter to be a component.
     Instead received ${component} *)
| Error_define_must_return (children component : jsval)
  (* define() method must return either an object or an array.
     Instead received ${children} from ${component}. *)
| TypeError_assign (target : jsval)
  (* a property assigned on a primitive, in strict mode *)
| Thrown (reason : jsval)
| OutOfFuel.

(** The calls one run makes, in order. *)
Inductive event : Type :=
| Called_defineComponent (component state : jsval)
| Called_sync (this : jsval)
| Called_hydrateComponent (component state : jsval)
| Called_define (this : jsval).

Record world : Type := World {
  store : heap;
  trace : list event
}.

Definition promise (A : Type) := M world error A.

(** What the file imports, and the methods of the components it is given.
    They read and write the heap. *)
Record externals : Type := {
  isComponent : jsval -> heap -> bool;
  clone : jsval -> M heap error jsval;
  sync : jsval -> jsval -> M heap error jsval;
  hydrateComponent : jsval -> jsval -> jsval -> M heap error jsval;
  (* [component.define] when [isFunction(component.define)] *)
  define_method : jsval -> heap -> option (jsval -> M heap error jsval);
  resolve : heap -> jsval -> jsval;
  (* [map] and [filter] applied to a value that is neither an object or
     array literal nor a string: what they give, or what they throw *)
  map_other : (jsval -> jsval) -> jsval -> heap -> result error jsval;
  filter_other : (jsval -> bool) -> jsval -> heap -> result error jsval
}.

Definition call {A} (f : M heap error A) : promise A :=
  fun w =>
    let '(r, h) := f (store w) in
    (r, World h (trace w)).

Definition record (e : event) : promise unit :=
  modify (fun w => World (store w) (trace w ++ [e])).

Definition read {A} (f : heap -> A) : promise A := gets (fun w => f (store w)).

(** A computation extends the trace: it records calls and erases none. *)
Definition extends {A} (m : promise A) : Prop :=
  forall w, exists events, trace (m w).2 = trace w ++ events.

Definition fields (h : heap) (l : loc) : object := default ∅ (h !! l).

Definition field (h : heap) (l : loc) (k : string) : jsval :=
  default VUndefined (fields h l !! k).

(** [o[k]] for any value. *)
Definition get1 (h : heap) (o : jsval) (k : string) : jsval :=
  match o with
  | VRef l => field h l k
  | _ => get_prop o k
  end.

(** [get(path, o)] *)
Definition get (path : list string) (o : jsval) (h : heap) : jsval :=
  foldl (get1 h) o path.

(** The keys and values the collection utilities iterate over. *)
Definition collection_entries (h : heap) (c : jsval) : list (string * jsval) :=
  match c with
  | VRef l => map_to_list (fields h l)
  | _ => entries_of c
  end.

(** A collection with the same keys and new values. *)
Definition rebuild (c : jsval) (es : list (string * jsval)) : jsval :=
  match c with
  | VArr _ => VArr es.*2
  | _ => VObj es
  end.

Definition set_entry (k : string) (v : jsval) (es : list (string * jsval))
  : list (string * jsval) :=
  if existsb (fun e => bool_decide (e.1 = k)) es
  then map (fun e => if bool_decide (e.1 = k) then (k, v) else e) es
  else es ++ [(k, v)].

(** [target[k] = v]; the value [target] denotes afterwards is returned. *)
Definition assign (target : jsval) (k : string) (v : jsval) : M heap error jsval :=
  match target with
  | VRef l =>
      modify (fun h => <[l := <[k := v]> (fields h l)]> h);;
      ret target
  | VObj es => ret (VObj (set_entry k v es))
  | VArr _ => ret target
  | _ => throw (TypeError_assign target)
  end.

(** [forEach((child) => { child.parent = component }, children)] *)
Definition set_parents (component children : jsval) : M heap error jsval :=
  await es <- gets (fun h => collection_entries h children);
  await es' <- map_entries (fun child _ => assign child "parent" component) es;
  ret (match children with
       | VObj _ | VArr _ => rebuild children es'
       | _ => children
       end).

Section Hydration.
Variable ext : externals.

(** The characters of a string, which the collection utilities iterate
    over as they do over the items of an array. *)
Definition characters (s : string) : list jsval :=
  map (fun c => VStr (String c "")) (list_ascii_of_string s).

Definition utils_map (f : jsval -> jsval) (c : jsval) (h : heap) : result error jsval :=
  match c with
  | VObj es => Fulfilled (VObj (map (fun e => (e.1, f e.2)) es))
  | VArr vs => Fulfilled (VArr (map f vs))
  | VStr s => Fulfilled (VArr (map f (characters s)))
  | _ => map_other ext f c h
  end.

Definition utils_filter (p : jsval -> bool) (c : jsval) (h : heap) : result error jsval :=
  match c with
  | VObj es => Fulfilled (VObj (filter (fun e => p e.2 = true) es))
  | VArr vs => Fulfilled (VArr (filter (fun v => p v = true) vs))
  | VStr s => Fulfilled (VArr (filter (fun v => p v = true) (characters s)))
  | _ => filter_other ext p c h
  end.

(** [filter(isComponent, map(resolve, children))] *)
Definition valid_children (children : jsval) (h : heap) : result error jsval :=
  match utils_map (resolve ext h) children h with
  | Fulfilled resolved => utils_filter (fun v => isComponent ext v h) resolved h
  | Rejected e => Rejected e
  end.

(** The previous state that is carried forward (lines 36 to 38). *)
Definition carried_state (status state componentClone : jsval) : jsval :=
  if negb (strict_equals status (VStr "removed")) then componentClone else state.

(** [async (child, key) => defineComponent(child, get(['children', key], state), context)] *)
Definition defineChild (defineComponent : jsval -> jsval -> jsval -> promise jsval)
  (state context child : jsval) (key : string) : promise jsval :=
  await previous <- read (get ["children"; key] state);
  defineComponent child previous context.

(** [defineComponent].  The recursion follows the children [define]
    returns, so it is bounded by [fuel].  The children are hydrated in the
    order of their keys; the interleaving of their asynchronous steps is
    not modelled. *)
Fixpoint defineComponent (fuel : nat) (component state context : jsval) : promise jsval :=
  match fuel with
  | O => throw OutOfFuel
  | S fuel =>
      record (Called_defineComponent component state);;
      await is_component <- read (isComponent ext component);
      if negb is_component then throw (TypeError_not_a_component component) else
      await componentClone <- call (clone ext component);
      record (Called_sync componentClone);;
      await status <- call (sync ext componentClone context);
      let state := carried_state status state componentClone in
      record (Called_hydrateComponent component state);;
      await component <- call (hydrateComponent ext component state context);
      await define <- read (define_method ext component);
      match define with
      | Some define =>
          record (Called_define component);;
          await returned <- call (define context);
          let children := js_or returned (VObj []) in
          await children <- call (fun h => (valid_children children h, h));
          if isObject children then
            await children <- call (set_parents component children);
            await es <- read (fun h => collection_entries h children);
            await hydrated <-
              map_entries (defineChild (defineComponent fuel) state context) es;
            await component <- call (assign component "children" (rebuild children hydrated));
            ret component
          else
            throw (Error_define_must_return children component)
      | None => ret component
      end
  end.

End Hydration.

(** *** A world of stub components

    The runs below are made in a world where a component is a heap object
    that says in its own fields what its methods answer: [syncStatus] is
    the status its [sync] reports, and [defineReturns], when present, is
    the value its [define] returns. *)

(** Modelled from the spec: isComponent (./isComponent is not among the
    sources).  A Component is a node with a stable [instanceId]. *)
Definition stub_isComponent (v : jsval) (h : heap) : bool :=
  match v with
  | VRef l => bool_decide (is_Some (fields h l !! "instanceId"))
  | _ => false
  end.

(** Modelled from the spec: clone (a utility, not among the sources),
    "an independent working copy of component": a new object with the
    fields of the component. *)
Definition stub_clone (v : jsval) : M heap error jsval :=
  fun h =>
    match v with
    | VRef l => let l' := fresh (dom h) in (Fulfilled (VRef l'), <[l' := fields h l]> h)
    | _ => (Fulfilled v, h)
    end.

Definition stub_sync (this context : jsval) : M heap error jsval :=
  fun h => (Fulfilled (get1 h this "syncStatus"), h).

(** Modelled from the spec: hydrateComponent (./hydrateComponent is not
    among the sources).  "Hydrate the original component by attaching onto
    it whatever resolved configuration/state resulted from step 2 (merging
    desired fields with resolved/computed fields), yielding the node that
    all subsequent steps operate on": the fields of the state that the
    component lacks are added to the component, which is returned. *)
Definition spec_hydrateComponent (component state context : jsval) : M heap error jsval :=
  fun h =>
    match component, state with
    | VRef c, VRef s => (Fulfilled component, <[c := fields h c ∪ fields h s]> h)
    | _, _ => (Fulfilled component, h)
    end.

Definition stub_define_method (component : jsval) (h : heap)
  : option (jsval -> M heap error jsval) :=
  match component with
  | VRef l =>
      match fields h l !! "defineReturns" with
      | Some returned => Some (fun _ h' => (Fulfilled returned, h'))
      | None => None
      end
  | _ => None
  end.

(** Modelled from the spec: the collection utilities are not among the
    sources, "assume standard collection operations".  A value that is
    neither an object, an array nor a string cannot be iterated: the
    utility throws. *)
Definition stub_not_iterable {A} (f : A) (v : jsval) (h : heap) : result error jsval :=
  Rejected (Thrown (VStr "not iterable")).

Definition stubs : externals := {|
  isComponent := stub_isComponent;
  clone := stub_clone;
  sync := stub_sync;
  hydrateComponent := spec_hydrateComponent;
  define_method := stub_define_method;
  resolve := fun _ v => v;
  map_other := stub_not_iterable;
  filter_other := stub_not_iterable
|}.

(** An application [1] whose [define] returns [{ db: 2 }]; the child [2]
    was defined by another component [9] and carries it as parent.  The
    previous deployment is the tree [7] with the child [8]. *)
Definition app_heap (status : string) : heap :=
  <[1%positive := {[ "instanceId" := VStr "app"; "syncStatus" := VStr status;
                     "defineReturns" := VObj [("db", VRef 2%positive)] ]}]>
  (<[2%positive := {[ "instanceId" := VStr "db"; "syncStatus" := VStr status;
                      "parent" := VRef 9%positive ]}]>
  (<[9%positive := {[ "instanceId" := VStr "other" ]}]>
  (<[7%positive := {[ "instanceId" := VStr "app"; "children" := VObj [("db", VRef 8%positive)] ]}]>
  (<[8%positive := {[ "instanceId" := VStr "db"; "topicArn" := VStr "arn:db" ]}]> ∅)))).

Definition app_world (status : string) : world := World (app_heap status) [].

(** A component whose [define] returns a plain string. *)
Definition oops_heap : heap :=
  {[ 1%positive := {[ "instanceId" := VStr "app"; "syncStatus" := VStr "synced";
                      "defineReturns" := VStr "oops" ]} ]}.

Definition oops_world : world := World oops_heap [].

End Hydrate.

(** * Properties *)

(** ** JavaScript values *)

Lemma jsval_ind' (P : jsval -> Prop) :
  P VUndefined -> P VNull -> (forall b, P (VBool b)) -> (forall n, P (VNum n)) ->
  (forall s, P (VStr s)) -> (forall l, P (VRef l)) ->
  (forall es, Forall (fun e => P e.2) es -> P (VObj es)) ->
  (forall vs, Forall P vs -> P (VArr vs)) ->
  forall v, P v.
Proof.
  intros Hu Hn Hb Hz Hs Hr Ho Ha.
  fix IH 1.
  intros [| | b | n | s | l | es | vs];
    [exact Hu | exact Hn | apply Hb | apply Hz | apply Hs | apply Hr | |].
  - apply Ho. induction es as [|[k v] es IHes]; constructor; [apply IH | exact IHes].
  - apply Ha. induction vs as [|v vs IHvs]; constructor; [apply IH | exact IHvs].
Qed.

Lemma jsval_eqb_refl (a : jsval) : jsval_eqb a a = true.
Proof.
  induction a as [| | x | x | x | x | es IH | vs IH] using jsval_ind'; simpl;
    try done; try by apply bool_decide_eq_true.
  - rewrite Nat.eqb_refl. simpl. apply forallb_forall. intros x Hx.
    apply existsb_exists. exists x. split; [done|].
    rewrite bool_decide_eq_true_2 by done. simpl.
    rewrite Forall_forall in IH. apply IH. by apply list_elem_of_In.
  - induction IH as [|v vs Hv _ IHvs]; [done|]. by rewrite Hv, IHvs.
Qed.

(** Equal values are both null or undefined, or neither is. *)
Lemma jsval_eqb_isNil (a b : jsval) : jsval_eqb a b = true -> isNil b = isNil a.
Proof. destruct a, b; simpl; try done; by intros ->%bool_decide_eq_true. Qed.

(** On a key, a string or undefined, deep equality is equality. *)
Lemma jsval_eqb_head_key (a b : jsval) : jsval_eqb (head_key a) b = true <-> head_key a = b.
Proof.
  unfold head_key. destruct (keys a) as [|k ks]; destruct b; simpl;
    try (split; [discriminate | congruence]); try tauto.
  rewrite bool_decide_eq_true. split; congruence.
Qed.

(** The only value equal to an unset entry is that entry. *)
Lemma jsval_eqb_unset (key b : jsval) :
  jsval_eqb (Sns.unset key) b = true <-> b = Sns.unset key.
Proof.
  split; [|intros ->; apply jsval_eqb_refl].
  unfold Sns.unset. destruct b as [| | | | | | [|[k v] [|e es]] |]; simpl; try discriminate.
  rewrite !andb_true_r, orb_false_r, andb_true_iff, bool_decide_eq_true.
  intros [<- Hv]. by destruct v; try discriminate; apply bool_decide_eq_true in Hv as <-.
Qed.


(** ** The attribute diff *)

Section Diff.
Implicit Types (inputs state : list jsval) (item key : jsval).

(** The unset entries appended for a previous state: one for each of its
    attributes whose key is not a desired key, in order. *)
Lemma unsets_spec (attributeKeys : list jsval) state (acc : list jsval) :
  foldl
    (fun attributes attribute =>
       let key := head_key attribute in
       if negb (Sns.contains key attributeKeys)
       then attributes ++ [Sns.unset key]
       else attributes)
    acc state
  = acc ++ map (fun a => Sns.unset (head_key a))
             (filter (fun a => Sns.contains (head_key a) attributeKeys = false) state).
Proof.
  revert acc. induction state as [|a state IH]; intros acc; simpl.
  - by rewrite app_nil_r.
  - rewrite IH. destruct (Sns.contains (head_key a) attributeKeys) eqn:E; simpl.
    + rewrite filter_cons_False; [done | by rewrite E].
    + rewrite filter_cons_True by done. simpl. by rewrite <- app_assoc.
Qed.

Lemma contains_elem_of (a : jsval) (ks : list jsval) :
  Sns.contains (head_key a) ks = true <-> head_key a ∈ ks.
Proof.
  unfold Sns.contains. rewrite existsb_exists. split.
  - intros (x & Hin & Heq). apply jsval_eqb_head_key in Heq as <-. by apply list_elem_of_In.
  - intros Hin. exists (head_key a). split; [by apply list_elem_of_In | apply jsval_eqb_refl].
Qed.

(** An unset entry is kept by the final filter when the previous state
    does not hold it; any item is dropped when the state holds it. *)
Lemma absent_from_true state key :
  Sns.unset key ∉ state -> Sns.absent_from state (Sns.unset key) = true.
Proof.
  intros Hnot. unfold Sns.absent_from.
  destruct (find (jsval_eqb (Sns.unset key)) state) as [found|] eqn:E; [|done].
  apply find_some in E as [Hin Heq]. apply jsval_eqb_unset in Heq as ->.
  by apply list_elem_of_In in Hin.
Qed.

Lemma absent_from_false state item :
  item ∈ state -> isNil item = false -> Sns.absent_from state item = false.
Proof.
  intros Hin Hnil. unfold Sns.absent_from.
  destruct (find (jsval_eqb item) state) as [found|] eqn:E.
  - apply find_some in E as [_ Heq]. apply jsval_eqb_isNil in Heq. congruence.
  - apply list_elem_of_In in Hin.
    pose proof (find_none _ _ E _ Hin) as H. by rewrite jsval_eqb_refl in H.
Qed.

Lemma concatInputsAndState_unset inputs state (a : jsval) :
  a ∈ state ->
  head_key a ∉ map head_key inputs ->
  Sns.unset (head_key a) ∉ state ->
  Sns.unset (head_key a) ∈ Sns.concatInputsAndState inputs (VArr state).
Proof.
  intros Hin Hkey Hfresh. unfold Sns.concatInputsAndState. simpl.
  apply list_elem_of_filter. split; [by apply absent_from_true|].
  rewrite unsets_spec. simpl. apply elem_of_app. right.
  apply list_elem_of_In, in_map_iff. exists a. split; [done|].
  apply list_elem_of_In, list_elem_of_filter. split; [|done].
  destruct (Sns.contains (head_key a) (map head_key inputs)) eqn:E; [|done].
  by apply contains_elem_of in E.
Qed.

(** The desired attributes of the primary group are those of the three
    with a truthy value. *)
Lemma topicAttributes_of_filter (o : gmap string jsval) :
  Sns.topicAttributes_of o
  = filter (fun value => truthy (head_value value) = true) (Sns.primary_attributes o).
Proof.
  unfold Sns.topicAttributes_of.
  assert (forall l acc,
            foldl (fun result value =>
                     if truthy (head_value value) then result ++ [value] else result) acc l
            = acc ++ filter (fun value => truthy (head_value value) = true) l) as Hfold.
  { induction l as [|v l IH]; intros acc; simpl; [by rewrite app_nil_r|].
    rewrite IH. destruct (truthy (head_value v)) eqn:E.
    - rewrite filter_cons_True by done. by rewrite <- app_assoc.
    - rewrite filter_cons_False; [done | by rewrite E]. }
  by rewrite Hfold.
Qed.

(** The unset entry for the primary group, where the previous attributes
    are built from the previous instance: a display name, policy or
    delivery policy that the previous instance has and the desired one
    lacks is unset. *)
Lemma primary_attribute_unset (inputs prevInstance : gmap string jsval) (k : string) :
  k ∈ ["displayName"; "policy"; "deliveryPolicy"] ->
  truthy (Sns.field prevInstance k) = true ->
  truthy (Sns.field inputs k) = false ->
  VObj [(k, VStr "")]
  ∈ Sns.concatInputsAndState (Sns.topicAttributes_of inputs)
      (VArr (Sns.prevInstanceTopicAttributes_of prevInstance)).
Proof.
  intros Hk Hprev Hdesired.
  change (VObj [(k, VStr "")])
    with (Sns.unset (head_key (VObj [(k, Sns.field prevInstance k)]))).
  assert (forall o a, a ∈ Sns.primary_attributes o ->
            exists k', a = VObj [(k', Sns.field o k')]) as Hshape.
  { intros o a Ha. unfold Sns.primary_attributes in Ha.
    repeat (apply elem_of_cons in Ha as [->|Ha]; [eauto|]). by apply elem_of_nil in Ha. }
  apply concatInputsAndState_unset.
  - unfold Sns.prevInstanceTopicAttributes_of. apply list_elem_of_filter. split.
    + simpl. by destruct (Sns.field prevInstance k).
    + unfold Sns.primary_attributes.
      repeat (apply elem_of_cons in Hk as [->|Hk]; [set_solver|]). by apply elem_of_nil in Hk.
  - rewrite topicAttributes_of_filter. intros Hin.
    apply list_elem_of_In, in_map_iff in Hin as (a & Hkey & Hin).
    apply list_elem_of_In, list_elem_of_filter in Hin as [Htruthy Hin].
    apply Hshape in Hin as [k' ->]. simpl in Hkey, Htruthy.
    injection Hkey as ->. change (truthy (Sns.field inputs k) = true) in Htruthy. congruence.
  - unfold Sns.prevInstanceTopicAttributes_of. intros [_ Hin]%list_elem_of_filter.
    apply Hshape in Hin as [k' Heq]. simpl in Heq. injection Heq as <- Hvalue.
    rewrite <- Hvalue in Hprev. done.
Qed.

End Diff.

(** C9. The attribute diff of an attribute list against itself is empty:
    it holds no attribute to set and no unset entry. *)
Theorem concatInputsAndState_same (d : list (list (string * jsval))) :
  Sns.concatInputsAndState (map VObj d) (VArr (map VObj d)) = [].
Proof.
  unfold Sns.concatInputsAndState. simpl. rewrite unsets_spec. simpl.
  set (D := map VObj d).
  assert (Hnone : filter (fun a => Sns.contains (head_key a) (map head_key D) = false) D = []).
  { apply elem_of_nil_inv. intros a [Hc Hin]%list_elem_of_filter.
    assert (Sns.contains (head_key a) (map head_key D) = true) as Ht; [|congruence].
    apply contains_elem_of, list_elem_of_In, in_map, list_elem_of_In, Hin. }
  rewrite Hnone. simpl. rewrite app_nil_r.
  apply elem_of_nil_inv. intros item [Habs Hin]%list_elem_of_filter.
  rewrite absent_from_false in Habs; [done | done |].
  apply list_elem_of_In, in_map_iff in Hin as (es & <- & _). done.
Qed.

(** The unset entry for an attribute set: previous attributes that hold one
    entry for each key. *)
Lemma attribute_set_unset
  (inputs state : list (list (string * jsval))) (k : string) (v : jsval) :
  NoDup (map head_key (map VObj state)) ->
  [(k, v)] ∈ state ->
  truthy v = true ->
  VStr k ∉ map head_key (map VObj inputs) ->
  VObj [(k, VStr "")] ∈ Sns.concatInputsAndState (map VObj inputs) (VArr (map VObj state)).
Proof.
  intros Hset Hin Hv Hkey.
  change (VObj [(k, VStr "")]) with (Sns.unset (head_key (VObj [(k, v)]))).
  apply concatInputsAndState_unset.
  - apply list_elem_of_In, in_map, list_elem_of_In, Hin.
  - exact Hkey.
  - intros Hdup. set (S := map VObj state) in *.
    assert (VObj [(k, v)] ∈ S) as Hin' by apply list_elem_of_In, in_map, list_elem_of_In, Hin.
    assert (Sns.unset (head_key (VObj [(k, v)])) = VObj [(k, v)]) as Heq.
    { apply list_elem_of_lookup in Hdup as [i Hi], Hin' as [j Hj].
      assert (i = j) as ->; [|congruence].
      change (map head_key S) with (head_key <$> S) in Hset.
      eapply (NoDup_lookup _ _ _ (VStr k) Hset); rewrite list_lookup_fmap.
      - by rewrite Hi.
      - by rewrite Hj. }
    injection Heq as <-. done.
Qed.

(** The diff of the primary group of an instance against itself is empty
    when its display name, policy and delivery policy are strings or
    absent: a falsy value is then undefined, null or the empty string. *)
Lemma primary_diff_same (o : gmap string jsval) :
  (forall k, truthy (Sns.field o k) = false ->
             isNil (Sns.field o k) = true \/ Sns.field o k = VStr "") ->
  Sns.concatInputsAndState (Sns.topicAttributes_of o)
    (VArr (Sns.prevInstanceTopicAttributes_of o)) = [].
Proof.
  intros Htyped.
  assert (forall a, a ∈ Sns.primary_attributes o ->
            exists k, a = VObj [(k, Sns.field o k)]) as Hshape.
  { intros a Ha. unfold Sns.primary_attributes in Ha.
    repeat (apply elem_of_cons in Ha as [->|Ha]; [eauto|]). by apply elem_of_nil in Ha. }
  unfold Sns.concatInputsAndState. simpl. rewrite unsets_spec. simpl.
  apply elem_of_nil_inv. intros item [Habsent Hin]%list_elem_of_filter.
  rewrite absent_from_false in Habsent; [done | |].
  - apply elem_of_app in Hin as [Hin|Hin].
    + rewrite topicAttributes_of_filter in Hin.
      apply list_elem_of_filter in Hin as [Htruthy Hin].
      apply list_elem_of_filter. split; [|done].
      destruct (Hshape _ Hin) as [k ->]. simpl in *. by destruct (Sns.field o k).
    + apply list_elem_of_In, in_map_iff in Hin as (a & <- & Hin).
      apply list_elem_of_In, list_elem_of_filter in Hin as [Hkey Hin].
      pose proof Hin as [Hnil Hprimary]%list_elem_of_filter.
      destruct (Hshape _ Hprimary) as [k ->].
      change (head_value (VObj [(k, Sns.field o k)])) with (Sns.field o k) in Hnil.
      assert (truthy (Sns.field o k) = false) as Hfalsy.
      { destruct (truthy (Sns.field o k)) eqn:E; [|done]. exfalso.
        assert (Sns.contains (head_key (VObj [(k, Sns.field o k)]))
                  (map head_key (Sns.topicAttributes_of o)) = true) as Hc; [|congruence].
        apply contains_elem_of, list_elem_of_In, in_map, list_elem_of_In.
        rewrite topicAttributes_of_filter. by apply list_elem_of_filter. }
      destruct (Htyped k Hfalsy) as [Hn|Hempty].
      * by rewrite Hn in Hnil.
      * unfold Sns.unset. simpl. by rewrite <- Hempty.
  - apply elem_of_app in Hin as [Hin|Hin].
    + rewrite topicAttributes_of_filter in Hin.
      apply list_elem_of_filter in Hin as [_ Hin]. by destruct (Hshape _ Hin) as [k ->].
    + by apply list_elem_of_In, in_map_iff in Hin as (a & <- & _).
Qed.

(** C6. An attribute with a truthy value in the previous attributes, whose
    key is not among the keys of the desired attributes, appears in the
    diff as the unset entry [{k: ""}]: in the diff of two lists of
    attributes, where the previous list is an attribute set (one entry for
    each key), and in the diff [updateAttributes] makes of the display
    name, policy and delivery policy of two instances. *)
Theorem removed_attributes_are_unset :
  (forall (inputs state : list (list (string * jsval))) (k : string) (v : jsval),
     NoDup (map head_key (map VObj state)) ->
     [(k, v)] ∈ state ->
     truthy v = true ->
     VStr k ∉ map head_key (map VObj inputs) ->
     VObj [(k, VStr "")]
     ∈ Sns.concatInputsAndState (map VObj inputs) (VArr (map VObj state)))
  /\ (forall (inputs prevInstance : gmap string jsval) (k : string),
        k ∈ ["displayName"; "policy"; "deliveryPolicy"] ->
        truthy (Sns.field prevInstance k) = true ->
        truthy (Sns.field inputs k) = false ->
        VObj [(k, VStr "")]
        ∈ Sns.concatInputsAndState (Sns.topicAttributes_of inputs)
            (VArr (Sns.prevInstanceTopicAttributes_of prevInstance))).
Proof. split; [apply attribute_set_unset | apply primary_attribute_unset]. Qed.

(** A run of C6 on scenario C: the previous instance has the delivery
    policy "D1" and the desired one has none. *)
Lemma removed_attributes_are_unset_witness :
  VObj [("deliveryPolicy", VStr "")]
  ∈ Sns.concatInputsAndState
      (map VObj [[("policy", VStr "P1")]])
      (VArr (map VObj [[("policy", VStr "P1")]; [("deliveryPolicy", VStr "D1")]]))
  /\ VObj [("deliveryPolicy", VStr "")]
     ∈ Sns.concatInputsAndState
         (Sns.topicAttributes_of {[ "topicName" := VStr "orders"; "policy" := VStr "P1" ]})
         (VArr (Sns.prevInstanceTopicAttributes_of
                  {[ "topicName" := VStr "orders"; "policy" := VStr "P1";
                     "deliveryPolicy" := VStr "D1" ]})).
Proof.
  split.
  - apply (proj1 removed_attributes_are_unset
             [[("policy", VStr "P1")]]
             [[("policy", VStr "P1")]; [("deliveryPolicy", VStr "D1")]]
             "deliveryPolicy" (VStr "D1")).
    + apply NoDup_ListNoDup. vm_compute.
      constructor; [intros [H|[]]; discriminate H|]. constructor; [intros []|]. constructor.
    + apply list_elem_of_In. simpl. right. left. reflexivity.
    + reflexivity.
    + intros H. apply list_elem_of_In in H. simpl in H. destruct H as [H|[]]. discriminate H.
  - apply (proj2 removed_attributes_are_unset
             {[ "topicName" := VStr "orders"; "policy" := VStr "P1" ]}
             {[ "topicName" := VStr "orders"; "policy" := VStr "P1";
                "deliveryPolicy" := VStr "D1" ]}
             "deliveryPolicy").
    + apply list_elem_of_In. simpl. right. right. left. reflexivity.
    + vm_compute. reflexivity.
    + vm_compute. reflexivity.
Defined.

(** ** The lifecycle of a topic *)



(** C10. When the superclass constructor has run and the inputs are an
    object, [construct] leaves a topic name that is defined (truthy); when
    the inputs give no topic name, it is "sns-" followed by the
    [instanceId] the instance has at that point, as a template literal
    prints it: for an identifier that is a string, "sns-" followed by that
    string.  With inputs that are undefined or null nothing is
    constructed: reading [inputs.provider] throws a TypeError. *)
Theorem construct_topicName (ext : Sns.externals) (this this' : gmap string jsval)
  (inputs : jsval) (ctx : Sns.context) (h h' : Sns.history) :
  Sns.super_construct ext this inputs ctx h = (Fulfilled this', h') ->
  (isNil inputs = true ->
   exists what, Sns.construct ext this inputs ctx h = (Rejected (Sns.TypeError what), h'))
  /\ (isNil inputs = false ->
      exists constructed : gmap string jsval,
        Sns.construct ext this inputs ctx h = (Fulfilled constructed, h')
        /\ truthy (Sns.field constructed "topicName") = true
        /\ (truthy (get_prop inputs "topicName") = false ->
            Sns.field constructed "topicName"
            = VStr ("sns-" +:+ template_string (Sns.field this' "instanceId"))
            /\ forall id : string,
                 Sns.field this' "instanceId" = VStr id ->
                 Sns.field constructed "topicName" = VStr ("sns-" +:+ id))).
Proof.
  intros Hsuper. unfold Sns.construct, bind, ret, throw. rewrite Hsuper.
  split; intros Hnil; rewrite Hnil; [by eexists|].
  eexists. split; [reflexivity|].
  match goal with |- context [Sns.field ?c "topicName"] =>
    assert (Sns.field c "topicName"
            = js_or (get_prop inputs "topicName")
                (VStr ("sns-" +:+ template_string (Sns.field this' "instanceId")))) as ->
  end.
  { unfold Sns.field at 1.
    do 4 (rewrite lookup_insert_ne by done). rewrite lookup_insert_eq. simpl.
    do 2 f_equal. unfold Sns.field. by rewrite lookup_insert_ne. }
  unfold js_or. destruct (truthy (get_prop inputs "topicName")) eqn:E.
  - split; [exact E | discriminate].
  - split; [reflexivity|]. intros _. split; [reflexivity|]. by intros id ->.
Qed.

(** A run of C10: a topic constructed from inputs without a topic name. *)
Lemma construct_topicName_witness :
  exists constructed : gmap string jsval,
    Sns.construct Sns.orders_ext ∅ (VObj [("displayName", VStr "Orders")])
      Sns.orders_context [] = (Fulfilled constructed, [])
    /\ truthy (Sns.field constructed "topicName") = true
    /\ Sns.field constructed "topicName" = VStr "sns-t1".
Proof.
  destruct (proj2 (construct_topicName Sns.orders_ext ∅ (<["instanceId" := VStr "t1"]> ∅)
                     (VObj [("displayName", VStr "Orders")]) Sns.orders_context [] [] eq_refl)
              eq_refl)
    as (constructed & Hrun & Hdefined & Hdefault).
  exists constructed. repeat split; [exact Hrun | exact Hdefined |].
  apply (proj2 (Hdefault eq_refl) "t1"). vm_compute. reflexivity.
Defined.

(** ** Promises *)

Lemma bind_fulfilled {S E A B} (m : M S E A) (k : A -> M S E B) s a s' :
  m s = (Fulfilled a, s') -> bind m k s = k a s'.
Proof. intros H. unfold bind. by rewrite H. Qed.

Lemma bind_rejected {S E A B} (m : M S E A) (k : A -> M S E B) s e s' :
  m s = (Rejected e, s') -> bind m k s = (Rejected e, s').
Proof. intros H. unfold bind. by rewrite H. Qed.

Lemma bind_fulfilled_inv {S E A B} (m : M S E A) (k : A -> M S E B) s b s' :
  bind m k s = (Fulfilled b, s') ->
  exists a s1, m s = (Fulfilled a, s1) /\ k a s1 = (Fulfilled b, s').
Proof.
  unfold bind. destruct (m s) as [[a|e] s1]; [|discriminate]. intros H. by exists a, s1.
Qed.

(** ** The sequential executor *)

(** Once the accumulator is rejected, [reduce] calls the iteratee no more. *)
Lemma reduce_rejected {S E A B} (iteratee : A -> B -> M S E A) (accumulator : M S E A)
  (l : list B) (s s' : S) (e : E) :
  accumulator s = (Rejected e, s') -> reduce iteratee accumulator l s = (Rejected e, s').
Proof.
  revert accumulator. induction l as [|x l IH]; intros accumulator H; simpl; [done|].
  apply IH. by apply bind_rejected.
Qed.

(** C7.  What [resolveInSequence] does: with no operation it is fulfilled
    with the empty list; with one operation or more it is rejected with
    the TypeError of [promise.then], in the state it was started in: no
    operation has run.  So [updateDeliveryStatusAttributes] with an
    attribute to update is rejected before any request is made. *)
Theorem resolveInSequence_rejects :
  (forall (S E : Type) (not_a_function : E) (s : S),
     resolveInSequence not_a_function [] s = (Fulfilled [], s))
  /\ (forall (S E : Type) (not_a_function : E) (functionToExecute : M S E jsval)
        (functionsToExecute : list (M S E jsval)) (s : S),
        resolveInSequence not_a_function (functionToExecute :: functionsToExecute) s
        = (Rejected not_a_function, s))
  /\ (forall (sns : Sns.SNS) (attribute : jsval) (attributes : list jsval)
        (topicArn : jsval) (h : Sns.history),
        Sns.updateDeliveryStatusAttributes sns (attribute :: attributes) topicArn h
        = (Rejected (Sns.TypeError "promise.then is not a function"), h)).
Proof.
  assert (forall (S E : Type) (not_a_function : E) (functionToExecute : M S E jsval)
            (functionsToExecute : list (M S E jsval)) (s : S),
            resolveInSequence not_a_function (functionToExecute :: functionsToExecute) s
            = (Rejected not_a_function, s)) as Hrejects.
  { intros S E not_a_function f fs s. unfold resolveInSequence. simpl.
    by apply reduce_rejected. }
  split; [done|]. split; [exact Hrejects|].
  intros sns attribute attributes topicArn h.
  unfold Sns.updateDeliveryStatusAttributes. simpl. apply Hrejects.
Qed.

(** ** Deploying a topic that has no previous instance *)

Lemma field_insert (o : gmap string jsval) (k : string) (v : jsval) :
  Sns.field (<[k := v]> o) k = v.
Proof. unfold Sns.field. by rewrite lookup_insert_eq. Qed.

Lemma field_insert_ne (o : gmap string jsval) (k k' : string) (v : jsval) :
  k <> k' -> Sns.field (<[k := v]> o) k' = Sns.field o k'.
Proof. intros H. unfold Sns.field. by rewrite lookup_insert_ne. Qed.

Lemma field_empty (k : string) : Sns.field ∅ k = VUndefined.
Proof. done. Qed.


Lemma updateAttributes_orders (sns : Sns.SNS) (arn : jsval) (h : Sns.history) :
  exists settled,
  Sns.updateAttributes sns
      (<["displayName" := VStr "Orders"]>
       (<["policy" := VUndefined]>
       (<["deliveryPolicy" := VUndefined]>
       (<["deliveryStatusAttributes" := VUndefined]>
       (<["topicArn" := arn]> ∅)))))
      ∅ h
  = (settled, h ++ [Sns.SetTopicAttributes arn (VStr "DisplayName") (Sns.Text "Orders")]).
Proof.
  unfold Sns.updateAttributes.
  repeat first [rewrite field_insert | rewrite field_insert_ne by done | rewrite field_empty].
  change (Sns.topicAttributes_of _) with [VObj [("displayName", VStr "Orders")]].
  change (Sns.prevInstanceTopicAttributes_of ∅) with (@nil jsval).
  change (Sns.flatDeliveryStatusAttributes_of VUndefined) with (@nil jsval).
  change (Sns.concatInputsAndState [VObj [("displayName", VStr "Orders")]] (VArr []))
    with [VObj [("displayName", VStr "Orders")]].
  change (Sns.concatInputsAndState [] VUndefined) with (@nil jsval).
  unfold Sns.updateTopicAttributes. cbn [Sns.map_topicAttributes head_key keys entries_of fmap list_fmap fst].
  unfold bind at 1, Sns.Promise_all. cbn [map_awaiting].
  unfold Sns.setTopicAttribute at 1. cbn [head_key head_value keys values entries_of fmap list_fmap fst snd Sns.capitalize Sns.attributeValue].
  change (upcase "d") with "D"%char.
  unfold bind, ret, Sns.sns_setTopicAttributes.
  destruct (Sns.setTopicAttributes sns arn (VStr "DisplayName") (Sns.Text "Orders") h);
    eexists; reflexivity.
Qed.

(** C2, as amended.  Deploying the topic [{topicName: "orders",
    displayName: "Orders"}] with no previous instance issues one creation
    request and, once the provider has answered it, one attribute update:
    the display name is set on the new topic. *)
Theorem deploy_orders_requests (ext : Sns.externals) (this : gmap string jsval)
  (sns : Sns.SNS) (h h1 : Sns.history) (response : jsval) :
  Sns.field this "topicName" = VStr "orders" ->
  Sns.field this "displayName" = VStr "Orders" ->
  Sns.field this "policy" = VUndefined ->
  Sns.field this "deliveryPolicy" = VUndefined ->
  Sns.field this "deliveryStatusAttributes" = VUndefined ->
  Sns.new_SNS ext (Sns.field this "provider") h = (Fulfilled sns, h1) ->
  Sns.createTopic sns (VStr "orders") (h1 ++ [Sns.ContextLog "Creating SNS topic: 'orders'..."])
  = Fulfilled response ->
  isNil response = false ->
  exists settled events,
    Sns.deploy ext this None h = (settled, h1 ++ events)
    /\ Sns.creation_calls events = 1
    /\ Sns.update_calls events = 1
    /\ List.filter (fun e => negb (Sns.is_log e)) events
       = [ Sns.CreateTopic (VStr "orders");
           Sns.SetTopicAttributes (get_prop response "TopicArn") (VStr "DisplayName")
             (Sns.Text "Orders") ].
Proof.
  intros Hname Hdisplay Hpolicy Hdelivery Hstatus Hsns Hcreate Hresponse.
  unfold Sns.deploy.
  unfold bind at 1. rewrite Hsns. rewrite Hname. cbn [template_string].
  unfold bind at 1, Sns.context_log at 1, modify at 1.
  unfold Sns.createSNSTopic. rewrite Hname, Hdisplay, Hpolicy, Hdelivery, Hstatus.
  unfold bind at 2, Sns.sns_createTopic at 1.
  change ("Creating SNS topic: '" +:+ "orders" +:+ "'...") with "Creating SNS topic: 'orders'...".
  unfold bind at 1. rewrite Hcreate.
  unfold bind at 1, Sns.destructure at 1. rewrite Hresponse. unfold ret at 1.
  unfold bind at 1.
  destruct (updateAttributes_orders sns (get_prop response "TopicArn")
              ((h1 ++ [Sns.ContextLog "Creating SNS topic: 'orders'..."])
                 ++ [Sns.CreateTopic (VStr "orders")])) as [settled ->].
  destruct settled as [props|e]; unfold ret, bind, Sns.context_log, modify;
    eexists; eexists; (split; [rewrite <- !app_assoc; simpl; reflexivity|]);
    repeat split.
Qed.

(** ** Hydration *)

Section HydrationProperties.
Import Hydrate.
Variable ext : externals.

Lemma extends_ret {A} (a : A) : extends (ret a).
Proof. intros w. exists []. by rewrite app_nil_r. Qed.

Lemma extends_throw {A} (e : error) : extends (throw (A := A) e).
Proof. intros w. exists []. by rewrite app_nil_r. Qed.

Lemma extends_bind {A B} (m : promise A) (k : A -> promise B) :
  extends m -> (forall a, extends (k a)) -> extends (bind m k).
Proof.
  intros Hm Hk w. unfold bind. destruct (Hm w) as [ev1 H1].
  destruct (m w) as [[a|e] w1]; simpl in *.
  - destruct (Hk a w1) as [ev2 H2]. exists (ev1 ++ ev2). by rewrite H2, H1, app_assoc.
  - by exists ev1.
Qed.

Lemma extends_call {A} (f : M heap error A) : extends (call f).
Proof.
  intros w. unfold call. destruct (f (store w)) as [r h]. exists []. by rewrite app_nil_r.
Qed.

Lemma extends_record (e : event) : extends (record e).
Proof. intros w. by exists [e]. Qed.

Lemma extends_read {A} (f : heap -> A) : extends (read f).
Proof. intros w. exists []. by rewrite app_nil_r. Qed.

Lemma extends_map_entries (f : jsval -> string -> promise jsval) es :
  (forall child key, extends (f child key)) -> extends (map_entries f es).
Proof.
  intros Hf. induction es as [|[key child] es IH]; simpl.
  - apply extends_ret.
  - apply extends_bind; [apply Hf|]. intros child'.
    apply extends_bind; [apply IH|]. intros rest. apply extends_ret.
Qed.

Ltac extends_steps IH :=
  repeat first
    [ apply IH
    | apply extends_bind; [|intros ?]
    | apply extends_record | apply extends_read | apply extends_call
    | apply extends_ret | apply extends_throw
    | apply extends_map_entries; intros ? ?; unfold defineChild
    | match goal with |- extends (if ?b then _ else _) => destruct b end
    | match goal with |- extends (match ?d with Some _ => _ | None => _ end) => destruct d end
    | progress cbv zeta ].

Lemma extends_defineComponent fuel component state context :
  extends (defineComponent ext fuel component state context).
Proof.
  revert component state context.
  induction fuel as [|fuel IH]; intros component state context; simpl.
  - apply extends_throw.
  - extends_steps IH.
Qed.

Lemma trace_bind_prefix {A B} (m : promise A) (k : A -> promise B) w events :
  (exists rest, trace (m w).2 = trace w ++ events ++ rest) ->
  (forall a, extends (k a)) ->
  exists rest, trace (bind m k w).2 = trace w ++ events ++ rest.
Proof.
  intros [rest Hm] Hk. unfold bind. destruct (m w) as [[a|e] w1]; simpl in *.
  - destruct (Hk a w1) as [more Hmore]. exists (rest ++ more).
    by rewrite Hmore, Hm, <- !app_assoc.
  - by exists rest.
Qed.

(** A call of [defineComponent] is first recorded with its arguments. *)
Lemma defineComponent_first_event fuel component state context w :
  exists rest,
    trace (defineComponent ext (S fuel) component state context w).2
    = trace w ++ [Called_defineComponent component state] ++ rest.
Proof.
  simpl. match goal with |- context [bind (record ?e) ?k w] =>
    assert (forall u, extends (k u)) as Hk end.
  { intros _. extends_steps extends_defineComponent. }
  unfold bind at 1, record at 1, modify at 1.
  destruct (Hk tt (World (store w) (trace w ++ [Called_defineComponent component state])))
    as [rest Hrest].
  exists rest. rewrite Hrest. simpl. by rewrite <- app_assoc.
Qed.

(** The first steps of a run, up to the call of [hydrateComponent]. *)
Lemma defineComponent_until_hydrate fuel component state context w componentClone h1 status h2 :
  isComponent ext component (store w) = true ->
  clone ext component (store w) = (Fulfilled componentClone, h1) ->
  sync ext componentClone context h1 = (Fulfilled status, h2) ->
  defineComponent ext (S fuel) component state context w
  = bind (call (hydrateComponent ext component (carried_state status state componentClone) context))
      (fun component =>
         await define <- read (define_method ext component);
         match define with
         | Some define =>
             record (Called_define component);;
             await returned <- call (define context);
             let children := js_or returned (VObj []) in
             await children <- call (fun h => (valid_children ext children h, h));
             if isObject children then
               await children <- call (set_parents component children);
               await es <- read (fun h => collection_entries h children);
               await hydrated <-
                 map_entries
                   (defineChild (defineComponent ext fuel)
                      (carried_state status state componentClone) context)
                   es;
               await component <- call (assign component "children" (rebuild children hydrated));
               ret component
             else
               throw (Error_define_must_return children component)
         | None => ret component
         end)
      (World h2
         (trace w ++ [ Called_defineComponent component state;
                       Called_sync componentClone;
                       Called_hydrateComponent component
                         (carried_state status state componentClone) ])).
Proof.
  intros Hcomp Hclone Hsync. simpl.
  unfold bind at 1, record at 1, modify at 1.
  unfold bind at 1, read at 1, gets at 1. simpl. rewrite Hcomp. simpl.
  unfold bind at 1, call at 1. simpl. rewrite Hclone.
  unfold bind at 1, record at 1, modify at 1. simpl.
  unfold bind at 1, call at 1. simpl. rewrite Hsync.
  unfold bind at 1, record at 1, modify at 1. simpl.
  by rewrite <- !app_assoc.
Qed.

Lemma call_fulfilled {A} (f : M heap error A) w a h :
  f (store w) = (Fulfilled a, h) -> call f w = (Fulfilled a, World h (trace w)).
Proof. intros H. unfold call. by rewrite H. Qed.

(** The steps of a run up to the children that are kept. *)
Lemma defineComponent_until_children fuel component state context w componentClone h1
  status h2 node h3 define returned h4 valid :
  isComponent ext component (store w) = true ->
  clone ext component (store w) = (Fulfilled componentClone, h1) ->
  sync ext componentClone context h1 = (Fulfilled status, h2) ->
  hydrateComponent ext component (carried_state status state componentClone) context h2
  = (Fulfilled node, h3) ->
  define_method ext node h3 = Some define ->
  define context h3 = (Fulfilled returned, h4) ->
  valid_children ext (js_or returned (VObj [])) h4 = Fulfilled valid ->
  defineComponent ext (S fuel) component state context w
  = (if isObject valid then
       await children <- call (set_parents node valid);
       await es <- read (fun h => collection_entries h children);
       await hydrated <-
         map_entries
           (defineChild (defineComponent ext fuel)
              (carried_state status state componentClone) context)
           es;
       await component <- call (assign node "children" (rebuild children hydrated));
       ret component
     else
       throw (Error_define_must_return valid node))
      (World h4
         (trace w ++ [ Called_defineComponent component state;
                       Called_sync componentClone;
                       Called_hydrateComponent component
                         (carried_state status state componentClone);
                       Called_define node ])).
Proof.
  intros Hcomp Hclone Hsync Hhydrate Hmethod Hdefine Hvalid.
  rewrite (defineComponent_until_hydrate _ _ _ _ _ _ _ _ _ Hcomp Hclone Hsync).
  erewrite bind_fulfilled; [|by apply call_fulfilled].
  unfold bind at 1, read at 1, gets at 1. simpl. rewrite Hmethod.
  unfold bind at 1, record at 1, modify at 1. simpl.
  erewrite bind_fulfilled; [|by apply call_fulfilled]. simpl.
  erewrite bind_fulfilled; [|apply call_fulfilled; cbn [store]; by rewrite Hvalid].
  cbn [store trace]. by rewrite <- !app_assoc.
Qed.

Lemma map_entries_app {S E} (f : jsval -> string -> M S E jsval) es1 es2 s hydrated s1 :
  map_entries f es1 s = (Fulfilled hydrated, s1) ->
  map_entries f (es1 ++ es2) s
  = bind (map_entries f es2) (fun rest => ret (hydrated ++ rest)) s1.
Proof.
  revert s hydrated. induction es1 as [|[key child] es1 IH]; intros s hydrated; simpl.
  - intros [= <- <-]. unfold bind, ret. by destruct (map_entries f es2 s) as [[r|e] s2].
  - intros H. apply bind_fulfilled_inv in H as (child' & s' & Hchild & H).
    apply bind_fulfilled_inv in H as (rest' & s'' & Hrest & [= <- <-]).
    rewrite (bind_fulfilled _ _ _ _ _ Hchild). unfold bind at 1. rewrite (IH _ _ Hrest).
    unfold bind, ret. by destruct (map_entries f es2 s'') as [[r|e] s2].
Qed.

Lemma map_entries_app_bind {S E B} (f : jsval -> string -> M S E jsval)
  (k : list (string * jsval) -> M S E B) es1 es2 s hydrated s1 :
  map_entries f es1 s = (Fulfilled hydrated, s1) ->
  bind (map_entries f (es1 ++ es2)) k s
  = bind (bind (map_entries f es2) (fun rest => ret (hydrated ++ rest))) k s1.
Proof.
  intros H. unfold bind at 1. by rewrite (map_entries_app _ _ _ _ _ _ H).
Qed.

(** C1, as amended.  The state given to [hydrateComponent] is the state
    that was passed in when [sync], called on the clone, answers "removed",
    and it is the clone for any other status; the previous state of each
    child is read under [children] in that same state.  The previous state
    is kept, not discarded, on "removed". *)
Theorem carried_state_hydrates fuel component state context w componentClone h1 status h2 :
  isComponent ext component (store w) = true ->
  clone ext component (store w) = (Fulfilled componentClone, h1) ->
  sync ext componentClone context h1 = (Fulfilled status, h2) ->
  let carried := if strict_equals status (VStr "removed") then state else componentClone in
  (exists rest,
     trace (defineComponent ext (S fuel) component state context w).2
     = trace w ++ [ Called_defineComponent component state;
                    Called_sync componentClone;
                    Called_hydrateComponent component carried ] ++ rest)
  /\ (forall node h3 define returned h4 valid children h5 finished key child others
             hydrated w6,
        hydrateComponent ext component carried context h2 = (Fulfilled node, h3) ->
        define_method ext node h3 = Some define ->
        define context h3 = (Fulfilled returned, h4) ->
        valid_children ext (js_or returned (VObj [])) h4 = Fulfilled valid ->
        isObject valid = true ->
        set_parents node valid h4 = (Fulfilled children, h5) ->
        collection_entries h5 children = finished ++ (key, child) :: others ->
        map_entries (defineChild (defineComponent ext (S fuel)) carried context) finished
          (World h5 (trace w ++ [ Called_defineComponent component state;
                                  Called_sync componentClone;
                                  Called_hydrateComponent component carried;
                                  Called_define node ]))
        = (Fulfilled hydrated, w6) ->
        exists rest,
          trace (defineComponent ext (S (S fuel)) component state context w).2
          = trace w6
            ++ [Called_defineComponent child (get ["children"; key] carried (store w6))]
            ++ rest).
Proof.
  intros Hcomp Hclone Hsync carried.
  assert (carried_state status state componentClone = carried) as Hcarried.
  { unfold carried_state, carried. by destruct (strict_equals status (VStr "removed")). }
  split.
  - rewrite (defineComponent_until_hydrate _ _ _ _ _ _ _ _ _ Hcomp Hclone Hsync), Hcarried.
    match goal with |- context [bind ?m ?k ?w0] =>
      assert (extends (bind m k)) as Hext end.
    { apply extends_bind; [apply extends_call|]. intros node.
      apply extends_bind; [apply extends_read|]. intros [define|]; [|apply extends_ret].
      apply extends_bind; [apply extends_record|]. intros _.
      apply extends_bind; [apply extends_call|]. intros returned. simpl.
      apply extends_bind; [apply extends_call|]. intros children.
      destruct (isObject children); [|apply extends_throw].
      apply extends_bind; [apply extends_call|]. intros children'.
      apply extends_bind; [apply extends_read|]. intros es.
      apply extends_bind.
      { apply extends_map_entries. intros child key. unfold defineChild.
        apply extends_bind; [apply extends_read|]. intros previous.
        apply extends_defineComponent. }
      intros hydrated. apply extends_bind; [apply extends_call|]. intros r. apply extends_ret. }
    destruct (Hext (World h2 (trace w ++ [Called_defineComponent component state;
                                          Called_sync componentClone;
                                          Called_hydrateComponent component carried])))
      as [rest Hrest].
    exists rest. rewrite Hrest. simpl. by rewrite <- app_assoc.
  - intros node h3 define returned h4 valid children h5 finished key child others hydrated w6
      Hhydrate Hmethod Hdefine Hvalid Hobject Hparents Hentries Hfinished.
    rewrite <- Hcarried in Hhydrate.
    rewrite (defineComponent_until_children _ _ _ _ _ _ _ _ _ _ _ _ _ _ _
               Hcomp Hclone Hsync Hhydrate Hmethod Hdefine Hvalid).
    rewrite Hobject, Hcarried.
    erewrite bind_fulfilled; [|by apply call_fulfilled].
    erewrite bind_fulfilled; [|reflexivity]. cbn [store]. rewrite Hentries.
    rewrite (map_entries_app_bind _ _ _ _ _ _ _ Hfinished).
    apply trace_bind_prefix; [|intros; extends_steps extends_defineComponent].
    apply trace_bind_prefix; [|intros; extends_steps extends_defineComponent].
    cbn [map_entries].
    apply trace_bind_prefix; [|intros; extends_steps extends_defineComponent].
    unfold defineChild. erewrite bind_fulfilled; [|reflexivity].
    apply defineComponent_first_event.
Qed.




End HydrationProperties.

Section Parents.
Import Hydrate.

Lemma assign_parents (component : jsval) (es : list (string * jsval)) (h : heap) :
  Forall (fun e => exists l, e.2 = VRef l) es ->
  exists h',
    map_entries (fun child _ => assign child "parent" component) es h = (Fulfilled es, h')
    /\ forall l, field h l "parent" = component \/ (exists key, (key, VRef l) ∈ es) ->
                 field h' l "parent" = component.
Proof.
  intros Hrefs. revert h. induction Hrefs as [|[key child] es [l0 Hchild] _ IH]; intros h.
  - exists h. split; [done|]. intros l [H|[key H]]; [done|]. by apply elem_of_nil in H.
  - simpl in Hchild. subst child. cbn [map_entries].
    set (h1 := <[l0 := <["parent" := component]> (fields h l0)]> h).
    destruct (IH h1) as (h' & Hrun & Hparents).
    exists h'. split.
    + erewrite bind_fulfilled; [|reflexivity]. fold h1.
      erewrite bind_fulfilled; [|exact Hrun]. reflexivity.
    + assert (field h1 l0 "parent" = component) as Hl0.
      { unfold field, fields, h1. rewrite lookup_insert_eq. simpl. by rewrite lookup_insert_eq. }
      intros l [H|[k H]].
      * apply Hparents. left. destruct (decide (l = l0)) as [->|Hne]; [done|].
        unfold field, fields, h1. by rewrite lookup_insert_ne.
      * apply elem_of_cons in H as [[= -> ->]|H]; apply Hparents; [by left | right; by exists k].
Qed.

Lemma indexed_values (g : nat -> string) (vs : list jsval) :
  (imap (fun i x => (g i, x)) vs).*2 = vs.
Proof.
  revert g. induction vs as [|v vs IH]; intros g; [done|].
  simpl. f_equal. exact (IH (g ∘ S)).
Qed.

(** C3, as amended.  Each child, a heap object, gets the node as its
    parent, whatever parent it carried: the parent is overwritten and
    nothing is rejected. *)
Theorem set_parents_overwrites (component children : jsval) (h : heap) :
  Forall (fun e => exists l, e.2 = VRef l) (collection_entries h children) ->
  exists h',
    set_parents component children h = (Fulfilled children, h')
    /\ forall key l, (key, VRef l) ∈ collection_entries h children ->
                     field h' l "parent" = component.
Proof.
  intros Hrefs. destruct (assign_parents component _ h Hrefs) as (h' & Hrun & Hparents).
  exists h'. split.
  - unfold set_parents. erewrite bind_fulfilled; [|reflexivity].
    erewrite bind_fulfilled; [|exact Hrun]. unfold ret. f_equal. f_equal.
    destruct children; try done. simpl. f_equal. apply indexed_values.
  - intros key l Hin. apply Hparents. right. by exists key.
Qed.

End Parents.

(** ** Runs in the world of stub components *)

Section Runs.
Import Hydrate.

(** C1, as stated, fails: [sync] answers "removed" for the application and
    for its child, and the previous state [7] is still the state the
    application is hydrated with, and the previous child [8] the state its
    child is hydrated with. *)
Lemma removed_keeps_the_previous_state :
  defineComponent stubs 5 (VRef 1%positive) (VRef 7%positive) VUndefined (app_world "removed")
  = (Fulfilled (VRef 1%positive),
     (defineComponent stubs 5 (VRef 1%positive) (VRef 7%positive) VUndefined (app_world "removed")).2)
  /\ trace (defineComponent stubs 5 (VRef 1%positive) (VRef 7%positive) VUndefined (app_world "removed")).2
     = [ Called_defineComponent (VRef 1%positive) (VRef 7%positive);
         Called_sync (VRef 10%positive);
         Called_hydrateComponent (VRef 1%positive) (VRef 7%positive);
         Called_define (VRef 1%positive);
         Called_defineComponent (VRef 2%positive) (VRef 8%positive);
         Called_sync (VRef 11%positive);
         Called_hydrateComponent (VRef 2%positive) (VRef 8%positive) ]
  /\ VRef 7%positive <> VUndefined.
Proof. split; [|split]; [vm_compute; reflexivity | vm_compute; reflexivity | discriminate]. Qed.

(** A run of C1 as amended, in the same world. *)
Lemma carried_state_hydrates_witness :
  (exists rest,
     trace (defineComponent stubs 2 (VRef 1%positive) (VRef 7%positive) VUndefined (app_world "removed")).2
     = [ Called_defineComponent (VRef 1%positive) (VRef 7%positive);
         Called_sync (VRef 10%positive);
         Called_hydrateComponent (VRef 1%positive) (VRef 7%positive) ] ++ rest)
  /\ (exists rest,
        trace (defineComponent stubs 3 (VRef 1%positive) (VRef 7%positive) VUndefined (app_world "removed")).2
        = [ Called_defineComponent (VRef 1%positive) (VRef 7%positive);
            Called_sync (VRef 10%positive);
            Called_hydrateComponent (VRef 1%positive) (VRef 7%positive);
            Called_define (VRef 1%positive) ]
          ++ [Called_defineComponent (VRef 2%positive) (VRef 8%positive)] ++ rest).
Proof.
  pose (h1 := (stub_clone (VRef 1%positive) (app_heap "removed")).2).
  pose (h3 := (spec_hydrateComponent (VRef 1%positive) (VRef 7%positive) VUndefined h1).2).
  pose (h5 := (set_parents (VRef 1%positive) (VObj [("db", VRef 2%positive)]) h3).2).
  assert (isComponent stubs (VRef 1%positive) (store (app_world "removed")) = true) as Hcomp
    by (vm_compute; reflexivity).
  assert (clone stubs (VRef 1%positive) (store (app_world "removed")) = (Fulfilled (VRef 10%positive), h1))
    as Hclone by (vm_compute; reflexivity).
  assert (sync stubs (VRef 10%positive) VUndefined h1 = (Fulfilled (VStr "removed"), h1)) as Hsync
    by (vm_compute; reflexivity).
  destruct (carried_state_hydrates stubs 1 (VRef 1%positive) (VRef 7%positive) VUndefined (app_world "removed")
              (VRef 10%positive) h1 (VStr "removed") h1 Hcomp Hclone Hsync) as [Hfirst Hchildren].
  split; [exact Hfirst|].
  apply (Hchildren (VRef 1%positive) h3 (fun _ h' => (Fulfilled (VObj [("db", VRef 2%positive)]), h'))
           (VObj [("db", VRef 2%positive)]) h3 (VObj [("db", VRef 2%positive)])
           (VObj [("db", VRef 2%positive)]) h5
           [] "db" (VRef 2%positive) [] []
           (World h5 [ Called_defineComponent (VRef 1%positive) (VRef 7%positive);
                       Called_sync (VRef 10%positive);
                       Called_hydrateComponent (VRef 1%positive) (VRef 7%positive);
                       Called_define (VRef 1%positive) ]));
    vm_compute; reflexivity.
Defined.

(** C3, as stated, fails: the child [2] carries the parent [9] when
    [define] returns it; the run is fulfilled and the child's parent is
    the application afterwards. *)
Lemma parent_is_overwritten :
  field (app_heap "synced") 2%positive "parent" = VRef 9%positive
  /\ (defineComponent stubs 5 (VRef 1%positive) (VRef 7%positive) VUndefined (app_world "synced")).1
     = Fulfilled (VRef 1%positive)
  /\ field (store (defineComponent stubs 5 (VRef 1%positive) (VRef 7%positive) VUndefined
                     (app_world "synced")).2) 2%positive "parent"
     = VRef 1%positive.
Proof. repeat split; vm_compute; reflexivity. Qed.

(** A run of C3 as amended on the children of the application. *)
Lemma set_parents_overwrites_witness :
  exists h',
    set_parents (VRef 1%positive) (VObj [("db", VRef 2%positive)]) (app_heap "synced")
    = (Fulfilled (VObj [("db", VRef 2%positive)]), h')
    /\ forall key l, (key, VRef l) ∈ [("db", VRef 2%positive)] -> field h' l "parent" = VRef 1%positive.
Proof.
  apply (set_parents_overwrites (VRef 1%positive) (VObj [("db", VRef 2%positive)]) (app_heap "synced")).
  constructor; [by exists 2%positive | constructor].
Defined.



(** C8.  A string that [define] returns is iterated by [map], character by
    character, and [filter] keeps an array of it: the value that is
    tested is an object whatever the string is, and the error that names
    the component is not raised.  With a [define] that returns "oops" the
    run is fulfilled, and the component has the empty array as its
    children. *)
Theorem define_returns_a_string :
  (forall (ext : externals) (s : string) (h : heap),
     exists children,
       valid_children ext (js_or (VStr s) (VObj [])) h = Fulfilled children
       /\ isObject children = true)
  /\ (exists w',
        defineComponent stubs 1 (VRef 1%positive) VUndefined VUndefined oops_world
        = (Fulfilled (VRef 1%positive), w')
        /\ field (store w') 1%positive "children" = VArr []
        /\ trace w'
           = [ Called_defineComponent (VRef 1%positive) VUndefined;
               Called_sync (VRef 2%positive);
               Called_hydrateComponent (VRef 1%positive) (VRef 2%positive);
               Called_define (VRef 1%positive) ]).
Proof.
  split.
  - intros ext s h. unfold js_or. destruct s as [|c s]; simpl; eexists; split; reflexivity.
  - eexists. split; [vm_compute; reflexivity|]. split; vm_compute; reflexivity.
Qed.

End Runs.

(** C2, as stated, fails: scenario A issues one creation request and one
    attribute update, not none. *)
Lemma deploy_orders_updates_the_display_name :
  Sns.orders_deployment.2
  = [ Sns.ContextLog "Creating SNS topic: 'orders'...";
      Sns.CreateTopic (VStr "orders");
      Sns.SetTopicAttributes (VStr "arn:aws:sns:orders") (VStr "DisplayName")
        (Sns.Text "Orders") ]
  /\ Sns.creation_calls Sns.orders_deployment.2 = 1
  /\ Sns.update_calls Sns.orders_deployment.2 <> 0.
Proof. repeat split; try (vm_compute; reflexivity). vm_compute. discriminate. Qed.

(** A run of C2 as amended: scenario A. *)
Lemma deploy_orders_requests_witness :
  exists settled events,
    Sns.deploy Sns.orders_ext Sns.orders_instance None [] = (settled, [] ++ events)
    /\ Sns.creation_calls events = 1
    /\ Sns.update_calls events = 1
    /\ List.filter (fun e => negb (Sns.is_log e)) events
       = [ Sns.CreateTopic (VStr "orders");
           Sns.SetTopicAttributes
             (get_prop (VObj [("TopicArn", VStr "arn:aws:sns:orders")]) "TopicArn")
             (VStr "DisplayName") (Sns.Text "Orders") ].
Proof.
  apply (deploy_orders_requests Sns.orders_ext Sns.orders_instance Sns.orders_sns [] []
           (VObj [("TopicArn", VStr "arn:aws:sns:orders")]));
    vm_compute; reflexivity.
Defined.
